(** * lambari, projeto1: the semantic core of the front end

    A shallow embedding of [include/utils.hpp] (types, operators, spelling
    tables, coercion rule, diagnostics) and of the expression nodes of
    [include/Action.hpp]: [Nop], [Variable], [Constant], [Operation] and its
    specialisations, and [ExpressionList].

    Conventions.
    - A [const std::unordered_map] is a [gmap]; the [std::hash]
      specialisations of the header become the [Countable] instances.
    - [std::out_of_range], thrown by [unordered_map::at], is a value of
      [exception]; a call that can throw returns a [Result].
    - Code that writes to [std::cerr] or reads the line counter runs in the
      monad [M] over the process state [World].
    - A member function that the header only declares has its body
      elsewhere.  [Operation::check] and the empty [set_children()] are
      parameters of the constructors; the other such bodies are definitions
      whose comment says what of the specification they follow. *)

From Stdlib Require Import NArith DecimalString.
From stdpp Require Import base decidable countable gmap strings list.

(** ** Enumerations of [utils.hpp] *)

(** [enum class Type]; [Action.hpp] spells its values [PrimitiveType::X]. *)
Inductive PrimitiveType := INT | FLOAT | BOOL | VOID | ANY.

Inductive Operator :=
| EQUAL
| NOT_EQUAL
| GREATER_THAN
| LESS_THAN
| GREATER_EQUAL_THAN
| LESS_EQUAL_THAN
| AND
| OR
| NOT
| PLUS
| MINUS
| TIMES
| DIVIDE
| UNARY_MINUS
| ASSIGN
| PAR
| CAST
| TEST.

Inductive Error :=
| MULTIPLE_DEFINITION
| UNDECLARED_VARIABLE
| INCOMPATIBLE_OPERANDS
| INCOMPATIBLE_ASSIGNMENT
| INCOMPATIBLE_TEST
| DECLARED_BUT_NEVER_DEFINED
| MULTIPLE_DEFINITION_FN
| WRONG_PARAM_COUNT
| INCOMPATIBLE_PARAM
| INCOMPATIBLE_INDEX
| NON_ARRAY_INDEX.

#[global] Instance PrimitiveType_eq_dec : EqDecision PrimitiveType.
Proof. solve_decision. Defined.

#[global] Instance Operator_eq_dec : EqDecision Operator.
Proof. solve_decision. Defined.

#[global] Instance Error_eq_dec : EqDecision Error.
Proof. solve_decision. Defined.

(** [static_cast<int>(type)]: the position of the enumerator. *)
Definition int_of_Type (type : PrimitiveType) : nat :=
  match type with INT => 0 | FLOAT => 1 | BOOL => 2 | VOID => 3 | ANY => 4 end.

Definition Type_of_int (n : nat) : PrimitiveType :=
  match n with 0 => INT | 1 => FLOAT | 2 => BOOL | 3 => VOID | _ => ANY end.

Definition int_of_Operator (op : Operator) : nat :=
  match op with
  | EQUAL => 0 | NOT_EQUAL => 1 | GREATER_THAN => 2 | LESS_THAN => 3
  | GREATER_EQUAL_THAN => 4 | LESS_EQUAL_THAN => 5 | AND => 6 | OR => 7
  | NOT => 8 | PLUS => 9 | MINUS => 10 | TIMES => 11 | DIVIDE => 12
  | UNARY_MINUS => 13 | ASSIGN => 14 | PAR => 15 | CAST => 16 | TEST => 17
  end.

Definition Operator_of_int (n : nat) : Operator :=
  match n with
  | 0 => EQUAL | 1 => NOT_EQUAL | 2 => GREATER_THAN | 3 => LESS_THAN
  | 4 => GREATER_EQUAL_THAN | 5 => LESS_EQUAL_THAN | 6 => AND | 7 => OR
  | 8 => NOT | 9 => PLUS | 10 => MINUS | 11 => TIMES | 12 => DIVIDE
  | 13 => UNARY_MINUS | 14 => ASSIGN | 15 => PAR | 16 => CAST | _ => TEST
  end.

(** [std::hash<Type>] and [std::hash<Operator>]: the enumerator's integer. *)
#[global] Instance hash_Type : Countable PrimitiveType.
Proof. by apply (inj_countable' int_of_Type Type_of_int); intros []. Defined.

#[global] Instance hash_Operator : Countable Operator.
Proof. by apply (inj_countable' int_of_Operator Operator_of_int); intros []. Defined.

(** ** Exceptions *)

Inductive exception := out_of_range.

Inductive Result (A : Type) :=
| Ok (a : A)
| Raise (e : exception).
Arguments Ok {A} a.
Arguments Raise {A} e.

Definition Result_bind {A B} (r : Result A) (k : A → Result B) : Result B :=
  match r with Ok a => k a | Raise e => Raise e end.

(** [Result] as a monad, for pure code that may throw. *)
#[global] Instance Result_ret : MRet Result := λ A a, Ok a.

#[global] Instance Result_mbind : MBind Result := λ A B k r, Result_bind r k.

(** [unordered_map::at]: the mapped value, or [std::out_of_range]. *)
Definition at_ `{Countable K} {V} (m : gmap K V) (k : K) : Result V :=
  match m !! k with
  | Some v => Ok v
  | None => Raise out_of_range
  end.

(** ** Process state and the monad of effectful code *)

(** [utils::line_counter]: a [size_t] that starts at 1. *)
Record line_counter := { val : N }.

Definition SIZE_MAX : N := 2 ^ 64 - 1.

Definition value (c : line_counter) : N := val c.

(** [operator++]: unsigned increment, wrapping at [SIZE_MAX]. *)
Definition pre_increment (c : line_counter) : line_counter :=
  {| val := (val c + 1) mod (SIZE_MAX + 1) |}.

(** What the code shares process-wide: the singleton line counter and the
    characters written to [std::cerr] so far. *)
Record World := { counter : line_counter; cerr : string }.

Definition initial_World : World := {| counter := {| val := 1 |}; cerr := "" |}.

Inductive outcome (A : Type) :=
| Returned (a : A) (w : World)
| Thrown (e : exception) (w : World).
Arguments Returned {A} a w.
Arguments Thrown {A} e w.

Definition world_of {A} (o : outcome A) : World :=
  match o with Returned _ w => w | Thrown _ w => w end.

Definition result_of {A} (o : outcome A) : Result A :=
  match o with Returned a _ => Ok a | Thrown e _ => Raise e end.

Definition M (A : Type) : Type := World → outcome A.

#[global] Instance M_ret : MRet M := λ A a w, Returned a w.

#[global] Instance M_bind : MBind M := λ A B k m w,
  match m w with
  | Returned a w' => k a w'
  | Thrown e w' => Thrown e w'
  end.

(** A call of a function that may throw, made from effectful code. *)
Definition lift {A} (r : Result A) : M A := λ w,
  match r with Ok a => Returned a w | Raise e => Thrown e w end.

(** One end of line, as [std::endl] writes it. *)
Definition endl : string := String (Ascii.ascii_of_nat 10) EmptyString.

(** [std::to_string(size_t)]: decimal digits, no sign, no padding. *)
Definition std_to_string (n : N) : string :=
  NilEmpty.string_of_uint (N.to_uint n).

(** ** namespace utils *)

Module utils.

Definition type_table : gmap PrimitiveType string :=
  list_to_map [ (INT, "int"); (FLOAT, "float"); (BOOL, "bool") ].

Definition operator_table : gmap Operator string :=
  list_to_map
    [ (EQUAL, "=="); (NOT_EQUAL, "!="); (GREATER_THAN, ">"); (LESS_THAN, "<");
      (GREATER_EQUAL_THAN, ">="); (LESS_EQUAL_THAN, "<="); (AND, "&");
      (OR, "|"); (NOT, "!"); (PLUS, "+"); (MINUS, "-"); (TIMES, "*");
      (DIVIDE, "/") ].

Definition printable_type_table : gmap PrimitiveType string :=
  list_to_map [ (INT, "integer"); (FLOAT, "float"); (BOOL, "boolean") ].

Definition printable_operator_table : gmap Operator string :=
  list_to_map
    [ (EQUAL, "equal"); (NOT_EQUAL, "different");
      (GREATER_THAN, "greater than"); (LESS_THAN, "less than");
      (GREATER_EQUAL_THAN, "greater or equal than");
      (LESS_EQUAL_THAN, "less or equal than"); (AND, "and"); (OR, "or");
      (NOT, "negation"); (PLUS, "addition"); (MINUS, "subtraction");
      (TIMES, "multiplication"); (DIVIDE, "division");
      (UNARY_MINUS, "unary minus"); (ASSIGN, "attribution"); (TEST, "test") ].

(** [to_string(Type)] and [to_string(Operator)]. *)
Definition to_string_Type (type : PrimitiveType) : Result string :=
  at_ type_table type.

Definition to_string_Operator (op : Operator) : Result string :=
  at_ operator_table op.

Definition to_printable_string_Type (type : PrimitiveType) : Result string :=
  at_ printable_type_table type.

Definition to_printable_string_Operator (op : Operator) : Result string :=
  at_ printable_operator_table op.

Definition can_coerce (target source : PrimitiveType) : bool :=
  bool_decide (target = FLOAT) && bool_decide (source = INT).

Definition type_matches (target source : PrimitiveType) : bool :=
  bool_decide (target = source).

(** [echo]: [std::cerr << value << std::endl]. *)
Definition echo (value : string) : M unit := λ w,
  Returned () {| counter := counter w; cerr := cerr w +:+ value +:+ endl |}.

Definition error_prefix (type : string) : M string := λ w,
  let line := std_to_string (value (counter w)) in
  Returned ("[Line " +:+ line +:+ "] " +:+ type +:+ " error: ") w.

(** The explicit specialisations of [semantic_error<err>], one per [Error]. *)

Definition semantic_error_MULTIPLE_DEFINITION (name : string) : M unit :=
  prefix ← error_prefix "semantic";
  echo (prefix +:+ "re-declaration of variable " +:+ name).

Definition semantic_error_MULTIPLE_DEFINITION_FN (name : string) : M unit :=
  prefix ← error_prefix "semantic";
  echo (prefix +:+ "re-declaration of function " +:+ name).

Definition semantic_error_UNDECLARED_VARIABLE (name : string) : M unit :=
  prefix ← error_prefix "semantic";
  echo (prefix +:+ "undeclared variable " +:+ name).

Definition semantic_error_INCOMPATIBLE_OPERANDS
    (op : Operator) (expected actual : PrimitiveType) : M unit :=
  op_name ← lift (to_printable_string_Operator op);
  expected_str ← lift (to_printable_string_Type expected);
  actual_str ← lift (to_printable_string_Type actual);
  prefix ← error_prefix "semantic";
  echo (prefix +:+ op_name +:+ " operation expected "
          +:+ expected_str +:+ " but received " +:+ actual_str).

Definition semantic_error_INCOMPATIBLE_ASSIGNMENT
    (expected actual : PrimitiveType) : M unit :=
  semantic_error_INCOMPATIBLE_OPERANDS ASSIGN expected actual.

Definition semantic_error_INCOMPATIBLE_TEST (received : PrimitiveType) : M unit :=
  semantic_error_INCOMPATIBLE_OPERANDS TEST BOOL received.

Definition semantic_error_DECLARED_BUT_NEVER_DEFINED (name : string) : M unit :=
  prefix ← error_prefix "semantic";
  echo (prefix +:+ "function " +:+ name +:+ " is declared but never defined").

Definition semantic_error_WRONG_PARAM_COUNT
    (name : string) (expected actual : N) : M unit :=
  prefix ← error_prefix "semantic";
  echo (prefix +:+ "function " +:+ name +:+ " expects "
          +:+ std_to_string expected +:+ " parameters but received "
          +:+ std_to_string actual).

Definition semantic_error_INCOMPATIBLE_PARAM
    (name : string) (expected actual : PrimitiveType) : M unit :=
  expected_str ← lift (to_printable_string_Type expected);
  actual_str ← lift (to_printable_string_Type actual);
  prefix ← error_prefix "semantic";
  echo (prefix +:+ "parameter " +:+ name +:+ " expected "
          +:+ expected_str +:+ " but received " +:+ actual_str).

Definition semantic_error_INCOMPATIBLE_INDEX
    (expected actual : PrimitiveType) : M unit :=
  expected_str ← lift (to_printable_string_Type expected);
  actual_str ← lift (to_printable_string_Type actual);
  prefix ← error_prefix "semantic";
  echo (prefix +:+ "index operator expects "
          +:+ expected_str +:+ " but received " +:+ actual_str).

Definition semantic_error_NON_ARRAY_INDEX : M unit :=
  prefix ← error_prefix "semantic";
  echo (prefix +:+ "index operator expects an array").

(** The parameter list each specialisation is declared with. *)
Definition arguments (err : Error) : Type :=
  match err with
  | MULTIPLE_DEFINITION | MULTIPLE_DEFINITION_FN | UNDECLARED_VARIABLE
  | DECLARED_BUT_NEVER_DEFINED => string
  | INCOMPATIBLE_OPERANDS => Operator * PrimitiveType * PrimitiveType
  | INCOMPATIBLE_ASSIGNMENT | INCOMPATIBLE_INDEX => PrimitiveType * PrimitiveType
  | INCOMPATIBLE_TEST => PrimitiveType
  | WRONG_PARAM_COUNT => string * N * N
  | INCOMPATIBLE_PARAM => string * PrimitiveType * PrimitiveType
  | NON_ARRAY_INDEX => unit
  end.

(** [semantic_error<err>(args...)]: the specialisation selected by [err]. *)
Definition semantic_error (err : Error) : arguments err → M unit :=
  match err with
  | MULTIPLE_DEFINITION => semantic_error_MULTIPLE_DEFINITION
  | MULTIPLE_DEFINITION_FN => semantic_error_MULTIPLE_DEFINITION_FN
  | UNDECLARED_VARIABLE => semantic_error_UNDECLARED_VARIABLE
  | INCOMPATIBLE_OPERANDS =>
      λ '(op, expected, actual), semantic_error_INCOMPATIBLE_OPERANDS op expected actual
  | INCOMPATIBLE_ASSIGNMENT =>
      λ '(expected, actual), semantic_error_INCOMPATIBLE_ASSIGNMENT expected actual
  | INCOMPATIBLE_TEST => semantic_error_INCOMPATIBLE_TEST
  | DECLARED_BUT_NEVER_DEFINED => semantic_error_DECLARED_BUT_NEVER_DEFINED
  | WRONG_PARAM_COUNT =>
      λ '(name, expected, actual), semantic_error_WRONG_PARAM_COUNT name expected actual
  | INCOMPATIBLE_PARAM =>
      λ '(name, expected, actual), semantic_error_INCOMPATIBLE_PARAM name expected actual
  | INCOMPATIBLE_INDEX =>
      λ '(expected, actual), semantic_error_INCOMPATIBLE_INDEX expected actual
  | NON_ARRAY_INDEX => λ _, semantic_error_NON_ARRAY_INDEX
  end.

End utils.

(** ** The Action hierarchy of [Action.hpp]: expression nodes

    The classes derived from [Operation] share its data members and differ
    only in their constructor and in the override of [op_string]; the
    dynamic class of such an object is an [OperationClass]. *)

Inductive OperationClass :=
| Operation_class
| Comparison_class
| BoolOperation_class
| Parenthesis_class
| UnaryMinus_class
| Cast_class.

#[local] Unset Elimination Schemes.
Inductive Action :=
| Nop
| Variable_ (fail : bool) (t : PrimitiveType) (name : string)
| Constant (t : PrimitiveType) (value : string)
| OperationNode (cls : OperationClass) (op : Operator) (t : PrimitiveType)
    (fail needs_coercion : bool) (children : list Action).
#[local] Set Elimination Schemes.

(** Structural induction that reaches the children of an operation. *)
Fixpoint Action_ind (P : Action → Prop)
    (HNop : P Nop)
    (HVariable : ∀ fail t name, P (Variable_ fail t name))
    (HConstant : ∀ t value, P (Constant t value))
    (HOperation : ∀ cls op t fail needs_coercion children,
        Forall P children →
        P (OperationNode cls op t fail needs_coercion children))
    (a : Action) : P a :=
  match a with
  | Nop => HNop
  | Variable_ fail t name => HVariable fail t name
  | Constant t value => HConstant t value
  | OperationNode cls op t fail nc children =>
      HOperation cls op t fail nc children
        ((fix all (l : list Action) : Forall P l :=
            match l with
            | [] => Forall_nil_2 P
            | c :: l' =>
                Forall_cons_2 P c l'
                  (Action_ind P HNop HVariable HConstant HOperation c) (all l')
            end) children)
  end.

(** The data members of [Operation], in declaration order. *)
Record Operation := {
  op : Operator;
  t : PrimitiveType;
  fail : bool;
  needs_coercion : bool;
  children : list Action
}.

Definition upcast (cls : OperationClass) (self : Operation) : Action :=
  OperationNode cls (op self) (t self) (fail self) (needs_coercion self)
    (children self).

Definition set_t (type : PrimitiveType) (self : Operation) : Operation :=
  {| op := op self; t := type; fail := fail self;
     needs_coercion := needs_coercion self; children := children self |}.

Definition set_fail (b : bool) (self : Operation) : Operation :=
  {| op := op self; t := t self; fail := b;
     needs_coercion := needs_coercion self; children := children self |}.

Definition set_needs_coercion (b : bool) (self : Operation) : Operation :=
  {| op := op self; t := t self; fail := fail self;
     needs_coercion := b; children := children self |}.

(** [children.push_back(action)]. *)
Definition push_back (action : Action) (self : Operation) : Operation :=
  {| op := op self; t := t self; fail := fail self;
     needs_coercion := needs_coercion self;
     children := children self ++ [action] |}.

(** *** [error()] and [type()] *)

(** [Action::error]: the default every class inherits unless it overrides. *)
Definition Action_error : bool := false.

Definition Nop_type : PrimitiveType := VOID.

(** Modelled from the spec: [Variable::error] and [Variable::type] are
    declared in the header and defined elsewhere; section 4.1 gives a
    variable its looked-up type and an error flag set when the lookup fails
    (the members [t] and [fail]). *)
Definition Variable_error (fail : bool) : bool := fail.

Definition Variable_type (t : PrimitiveType) : PrimitiveType := t.

(** Modelled from the spec: [Constant::error] and [Constant::type] are
    declared in the header and defined elsewhere; section 4.1: type is the
    given literal type, error is false always. *)
Definition Constant_error : bool := false.

Definition Constant_type (t : PrimitiveType) : PrimitiveType := t.

(** Modelled from the spec: [Operation::error], [Operation::type] and
    [Operation::set_type] are declared in the header and defined elsewhere;
    sections 4.3 and 7: a node reports its stored failed flag and its stored
    static type, and a specialisation overwrites the stored type. *)
Definition Operation_error (self : Operation) : bool := fail self.

Definition Operation_type (self : Operation) : PrimitiveType := t self.

Definition set_type (type : PrimitiveType) (self : Operation) : Operation :=
  set_t type self.

(** Virtual dispatch of [error()] and [type()]. *)
Definition error (a : Action) : bool :=
  match a with
  | Nop => Action_error
  | Variable_ fail _ _ => Variable_error fail
  | Constant _ _ => Constant_error
  | OperationNode _ o ty f nc cs => Operation_error (Build_Operation o ty f nc cs)
  end.

Definition type (a : Action) : PrimitiveType :=
  match a with
  | Nop => Nop_type
  | Variable_ _ t _ => Variable_type t
  | Constant t _ => Constant_type t
  | OperationNode _ o ty f nc cs => Operation_type (Build_Operation o ty f nc cs)
  end.

(** *** [op_string()] *)

(** Modelled from the spec: the base [Operation::op_string] is declared in
    the header and defined elsewhere; section 4.3: an operation is spelled
    with the operator's canonical symbol table entry. *)
Definition Operation_op_string (self : Operation) : Result string :=
  utils.to_string_Operator (op self).

Definition Parenthesis_op_string (self : Operation) : Result string :=
  Ok "".

Definition UnaryMinus_op_string (self : Operation) : Result string :=
  Ok "-u".

Definition Cast_op_string (self : Operation) : Result string :=
  name ← utils.to_string_Type (Operation_type self);
  Ok ("[" +:+ name +:+ "]").

(** Virtual dispatch of [op_string()]: [Comparison] and [BoolOperation]
    inherit the base version. *)
Definition op_string (cls : OperationClass) (self : Operation) : Result string :=
  match cls with
  | Operation_class | Comparison_class | BoolOperation_class =>
      Operation_op_string self
  | Parenthesis_class => Parenthesis_op_string self
  | UnaryMinus_class => UnaryMinus_op_string self
  | Cast_class => Cast_op_string self
  end.

(** *** Construction of an [Operation]

    [Operation::check] and the overload of [set_children] without
    parameters are declared in the header and defined elsewhere.  The
    constructors and the variadic [set_children] are stated over an arbitrary
    [check] and an arbitrary [set_children_end], so that what is proved of
    them holds whatever those two do. *)

(** The arguments a forwarding constructor ([Comparison], [BoolOperation])
    hands to [Operation]: overload resolution picks the constructor by the
    type of the first of them. *)
Inductive OperationArgs :=
| from_first (first : Action) (args : list Action)
| from_type (type : PrimitiveType) (args : list Action).

Section Construction.

Variable check : Action → Operation → M Operation.
Variable set_children_end : Operation → M Operation.

(** The variadic [set_children(Action*, Args&&...)], by recursion over its
    parameter pack; the empty pack selects the other overload. *)
Fixpoint set_children (args : list Action) (self : Operation) : M Operation :=
  match args with
  | [] => set_children_end self
  | action :: args =>
      let self := set_fail (fail self || error action) self in
      self ← (if negb (fail self) then check action self else mret self);
      let self := push_back action self in
      set_children args self
  end.

(** [Operation(Operator, Action*, Args&&...)], after the default member
    initialisers. *)
Definition Operation_from_first
    (op : Operator) (first : Action) (args : list Action) : M Operation :=
  let self := {| op := op; t := type first; fail := false;
                 needs_coercion := false; children := [] |} in
  set_children (first :: args) self.

(** [Operation(Operator, Type, Args&&...)]. *)
Definition Operation_from_type
    (op : Operator) (type : PrimitiveType) (args : list Action) : M Operation :=
  let self := {| op := op; t := type; fail := false;
                 needs_coercion := false; children := [] |} in
  set_children args self.

Definition Operation_ctor (op : Operator) (a : OperationArgs) : M Operation :=
  match a with
  | from_first first args => Operation_from_first op first args
  | from_type type args => Operation_from_type op type args
  end.

Definition new_Operation (op : Operator) (a : OperationArgs) : M Action :=
  self ← Operation_ctor op a;
  mret (upcast Operation_class self).

Definition new_Comparison (op : Operator) (a : OperationArgs) : M Action :=
  self ← Operation_ctor op a;
  let self := set_type BOOL self in
  mret (upcast Comparison_class self).

Definition new_BoolOperation (op : Operator) (args : list Action) : M Action :=
  self ← Operation_ctor op (from_type BOOL args);
  mret (upcast BoolOperation_class self).

Definition new_Parenthesis (operand : Action) : M Action :=
  self ← Operation_ctor PAR (from_first operand []);
  mret (upcast Parenthesis_class self).

Definition new_UnaryMinus (operand : Action) : M Action :=
  self ← Operation_ctor UNARY_MINUS (from_first operand []);
  mret (upcast UnaryMinus_class self).

Definition new_Cast (type : PrimitiveType) (operand : Action) : M Action :=
  self ← Operation_ctor CAST (from_first operand []);
  let self := set_type type self in
  mret (upcast Cast_class self).

End Construction.

(** Modelled from the spec: [Operation::check] is declared in the header and
    defined elsewhere.  Section 4.3, in its order: an accumulated type ANY
    skips the check; an equal type is accepted; a pair between which the
    implicit INT-to-FLOAT coercion exists is accepted and marks the node as
    needing coercion (section 8: in either position); anything else marks
    the node failed, sets its type to ANY and emits INCOMPATIBLE_OPERANDS
    with the operator, the expected and the actual type. *)
Definition check (action : Action) (self : Operation) : M Operation :=
  let expected := t self in
  let actual := type action in
  if bool_decide (expected = ANY) then mret self
  else if utils.type_matches expected actual then mret self
  else if utils.can_coerce expected actual || utils.can_coerce actual expected
  then mret (set_needs_coercion true self)
  else
    let self := set_t ANY (set_fail true self) in
    _ ← utils.semantic_error INCOMPATIBLE_OPERANDS (op self, expected, actual);
    mret self.

(** Modelled from the spec: the overload [set_children()] that ends the
    recursion is declared in the header and defined elsewhere; section 9
    describes the processing of the children as a fold over their sequence,
    so the empty case leaves the node as it is. *)
Definition set_children_end (self : Operation) : M Operation := mret self.

(** *** [to_string(unsigned)] *)

Definition Nop_to_string (depth : N) : string := "".

(** Modelled from the spec: [Variable::to_string] and [Constant::to_string]
    are declared in the header and defined elsewhere; sections 4.2 and 4.4
    render a variable by its name and a constant by its literal text. *)
Definition Variable_to_string (name : string) (depth : N) : string := name.

Definition Constant_to_string (value : string) (depth : N) : string := value.

(** Modelled from the spec: the layout of [Operation::to_string], declared
    in the header and defined elsewhere.  Section 4.3: the operand texts
    joined by the operator symbol between spaces, inside parentheses; a
    single operand has the symbol before it. *)
Fixpoint joined (symbol : string) (texts : list string) : string :=
  match texts with
  | [] => ""
  | [text] => text
  | text :: texts => text +:+ " " +:+ symbol +:+ " " +:+ joined symbol texts
  end.

Definition layout (symbol : string) (texts : list string) : string :=
  match texts with
  | [text] => "(" +:+ symbol +:+ text +:+ ")"
  | _ => "(" +:+ joined symbol texts +:+ ")"
  end.

(** Modelled from the spec: section 4.3 has the renderer insert an explicit
    cast where the node needs coercion; the cast is spelled as [Cast] spells
    it, before the INT operand it widens. *)
Definition operand_text
    (needs_coercion : bool) (operand : PrimitiveType) (text : string) : Result string :=
  if needs_coercion && bool_decide (operand = INT)
  then name ← utils.to_string_Type FLOAT; Ok ("[" +:+ name +:+ "]" +:+ text)
  else Ok text.

(** Modelled from the spec: [Operation::to_string] is declared in the header
    and defined elsewhere; section 4.3 renders the operands in order, spells
    the operator with [op_string()] and lays them out as above.  [render] is
    the virtual [to_string] of the operands. *)
Definition operands_text (render : Action → M string) (needs_coercion : bool)
    : list Action → M (list string) :=
  fix operands (l : list Action) : M (list string) :=
    match l with
    | [] => mret []
    | c :: l =>
        text ← render c;
        text ← lift (operand_text needs_coercion (type c) text);
        texts ← operands l;
        mret (text :: texts)
    end.

Definition Operation_to_string (render : Action → M string)
    (cls : OperationClass) (self : Operation) : M string :=
  texts ← operands_text render (needs_coercion self) (children self);
  symbol ← lift (op_string cls self);
  mret (layout symbol texts).

(** Virtual dispatch of [to_string(depth)], over the expression nodes
    embedded here; the other classes of the header, whose [to_string] has
    its body elsewhere, have no case. *)
Fixpoint to_string (a : Action) (depth : N) : M string :=
  match a with
  | Nop => mret (Nop_to_string depth)
  | Variable_ _ _ name => mret (Variable_to_string name depth)
  | Constant _ value => mret (Constant_to_string value depth)
  | OperationNode cls o ty f nc cs =>
      Operation_to_string (λ c, to_string c depth) cls
        (Build_Operation o ty f nc cs)
  end.

(** ** [ExpressionList] *)

Module ExpressionList.

(** The data members of the class, in declaration order. *)
Record object := { expressions : list Action; fail : bool }.

(** The class declares no constructor and [fail] has no default member
    initialiser: default-initialisation ([ExpressionList l;],
    [new ExpressionList]) leaves [fail] with an indeterminate value, here the
    parameter [indeterminate]. *)
Definition default_initialized (indeterminate : bool) : object :=
  {| expressions := []; fail := indeterminate |}.

(** Value-initialisation ([new ExpressionList()]) zero-initialises the
    members first, since the default constructor is not user-provided. *)
Definition value_initialized : object :=
  {| expressions := []; fail := false |}.

(** Modelled from the spec: [ExpressionList::add] is declared in the header
    and defined elsewhere; section 4.6: the list is appended to and
    propagates failure if any member fails. *)
Definition add (action : Action) (self : object) : object :=
  {| expressions := expressions self ++ [action];
     fail := fail self || error action |}.

Definition size (self : object) : nat := length (expressions self).

Definition error (self : object) : bool := fail self.

Definition type (self : object) : PrimitiveType := VOID.

End ExpressionList.

(** ** Notions used by the statements *)

(** The strings among the arguments of a call (the identifiers). *)
Definition names (err : Error) : utils.arguments err → list string :=
  match err with
  | MULTIPLE_DEFINITION | MULTIPLE_DEFINITION_FN | UNDECLARED_VARIABLE
  | DECLARED_BUT_NEVER_DEFINED => λ name, [name]
  | WRONG_PARAM_COUNT => λ '(name, _, _), [name]
  | INCOMPATIBLE_PARAM => λ '(name, _, _), [name]
  | INCOMPATIBLE_OPERANDS | INCOMPATIBLE_ASSIGNMENT | INCOMPATIBLE_INDEX
  | INCOMPATIBLE_TEST | NON_ARRAY_INDEX => λ _, []
  end.

(** The line a diagnostic is expected to be: [[Line <n>] semantic error: <message>]. *)
Definition diagnostic_line (n : N) (message : string) : string :=
  "[Line " +:+ std_to_string n +:+ "] semantic error: " +:+ message.

(** A text with no end of line in it. *)
Fixpoint single_line (s : string) : bool :=
  match s with
  | EmptyString => true
  | String c s => negb (Ascii.eqb c (Ascii.ascii_of_nat 10)) && single_line s
  end.

(** The node once [args] are pushed to its children, in order. *)
Definition append_children (args : list Action) (self : Operation) : Operation :=
  {| op := op self; t := t self; fail := fail self;
     needs_coercion := needs_coercion self;
     children := children self ++ args |}.

(** The state in which the recursion of [set_children] reaches the call for
    the child that follows [pre]. *)
Definition reaches (check : Action → Operation → M Operation)
    (pre : list Action) (self : Operation) : M Operation :=
  set_children check mret pre self.

(** The list after [members] are added to it, in order. *)
Definition add_all (members : list Action) (self : ExpressionList.object)
    : ExpressionList.object :=
  foldl (λ self action, ExpressionList.add action self) self members.

(** The shape of what one call of [semantic_error] leaves behind: one line
    of the expected form appended to [std::cerr], or, when a lookup threw
    first, nothing at all. *)
Definition emits_one_line
    (singles : list string) (w : World) (o : outcome ()) : Prop :=
  match o with
  | Returned _ w' =>
      ∃ message,
        cerr w' = cerr w
                  +:+ diagnostic_line (value (counter w)) message
                  +:+ endl
        ∧ counter w' = counter w
        ∧ (forallb single_line singles = true →
           single_line
             (diagnostic_line (value (counter w)) message) = true)
  | Thrown _ w' => w' = w
  end.

(** Whether every operator and type among the arguments of a call has a
    printable name. *)
Definition printable_arguments (err : Error) : utils.arguments err → bool :=
  match err with
  | INCOMPATIBLE_OPERANDS =>
      λ '(op, expected, actual),
        bool_decide (op ∉ [PAR; CAST])
        && bool_decide (expected ∈ [INT; FLOAT; BOOL])
        && bool_decide (actual ∈ [INT; FLOAT; BOOL])
  | INCOMPATIBLE_ASSIGNMENT | INCOMPATIBLE_INDEX =>
      λ '(expected, actual),
        bool_decide (expected ∈ [INT; FLOAT; BOOL])
        && bool_decide (actual ∈ [INT; FLOAT; BOOL])
  | INCOMPATIBLE_TEST => λ received, bool_decide (received ∈ [INT; FLOAT; BOOL])
  | INCOMPATIBLE_PARAM =>
      λ '(_, expected, actual),
        bool_decide (expected ∈ [INT; FLOAT; BOOL])
        && bool_decide (actual ∈ [INT; FLOAT; BOOL])
  | MULTIPLE_DEFINITION | MULTIPLE_DEFINITION_FN | UNDECLARED_VARIABLE
  | DECLARED_BUT_NEVER_DEFINED | WRONG_PARAM_COUNT | NON_ARRAY_INDEX =>
      λ _, true
  end.

(** The process state after [line] and the end of line went to [std::cerr]. *)
Definition written (line : string) (w : World) : World :=
  {| counter := counter w; cerr := cerr w +:+ line +:+ endl |}.

(** The loop of the destructors of [Declaration], [Operation], [Block] and
    [ExpressionList], over the member [items] ([declarations], [children],
    [lines], [expressions]):
    [while (!items.empty()) { delete items.back(); items.pop_back(); }].
    [deleted] is the sequence of pointers handed to [delete] so far; [fuel]
    bounds the number of times the loop condition is tested. *)
Fixpoint delete_all {A} (fuel : nat) (items deleted : list A)
    : option (list A * list A) :=
  match fuel with
  | 0 => None
  | S fuel =>
      match items with
      | [] => Some (items, deleted)
      | front :: _ =>
          let back := List.last items front in
          delete_all fuel (removelast items) (deleted ++ [back])
      end
  end.

(** Membership of an enumerator in a list of enumerators, by evaluation. *)
Ltac enumerated :=
  match goal with
  | |- _ ∈ _ => by apply (bool_decide_unpack _)
  | H : _ ∈ _ |- _ => by apply (bool_decide_pack _) in H
  | H : _ = _ |- _ => by vm_compute in H
  | |- ∃ _, _ => by vm_compute; eauto
  | |- _ = _ => by vm_compute
  end.

(** * Properties *)

(** ** The coercion rule *)

(** C3: the implicit-coercion test succeeds exactly for target FLOAT and
    source INT; nothing coerces into INT, BOOL, VOID or ANY, and nothing
    coerces out of FLOAT. *)
Theorem can_coerce_iff :
  (∀ target source,
      utils.can_coerce target source = true ↔ target = FLOAT ∧ source = INT)
  ∧ (∀ source, utils.can_coerce INT source = false)
  ∧ (∀ source, utils.can_coerce BOOL source = false)
  ∧ (∀ source, utils.can_coerce VOID source = false)
  ∧ (∀ source, utils.can_coerce ANY source = false)
  ∧ (∀ target, utils.can_coerce target FLOAT = false).
Proof.
  split.
  - intros target source. unfold utils.can_coerce.
    rewrite andb_true_iff, !bool_decide_eq_true. tauto.
  - repeat split; intros x; destruct x; reflexivity.
Qed.

(** ** Spelling tables *)

Lemma to_string_Type_defined (type : PrimitiveType) :
  (∃ s, utils.to_string_Type type = Ok s) ↔ type ∈ [INT; FLOAT; BOOL].
Proof. split; [intros [s Hs] | intros Hin]; destruct type; enumerated. Qed.

Lemma to_string_Type_raises (type : PrimitiveType) :
  utils.to_string_Type type = Raise out_of_range ↔ type ∈ [VOID; ANY].
Proof. split; [intros Hs | intros Hin]; destruct type; enumerated. Qed.




(** ** The monad of effectful code *)

Lemma bind_Returned {A B} (m : M A) (k : A → M B) w a w' :
  m w = Returned a w' → (m ≫= k) w = k a w'.
Proof. intros Hm. unfold mbind, M_bind. by rewrite Hm. Qed.

Lemma bind_Thrown {A B} (m : M A) (k : A → M B) w e w' :
  m w = Thrown e w' → (m ≫= k) w = Thrown e w'.
Proof. intros Hm. unfold mbind, M_bind. by rewrite Hm. Qed.

Lemma bind_inv_Returned {A B} (m : M A) (k : A → M B) w b w2 :
  (m ≫= k) w = Returned b w2 →
  ∃ a w1, m w = Returned a w1 ∧ k a w1 = Returned b w2.
Proof.
  unfold mbind, M_bind. destruct (m w) as [a w1|e w1]; [eauto | discriminate].
Qed.

Lemma bind_assoc {A B C} (m : M A) (f : A → M B) (g : B → M C) w :
  ((m ≫= f) ≫= g) w = (m ≫= λ a, f a ≫= g) w.
Proof. unfold mbind, M_bind. by destruct (m w). Qed.

Lemma bind_ext {A B} (m : M A) (f g : A → M B) w :
  (∀ a w', f a w' = g a w') → (m ≫= f) w = (m ≫= g) w.
Proof. intros Hfg. unfold mbind, M_bind. by destruct (m w). Qed.

Lemma bind_lift {A B} (r : Result A) (k : A → M B) w :
  (lift r ≫= k) w = match r with Ok a => k a w | Raise e => Thrown e w end.
Proof. by destruct r. Qed.

(** ** Diagnostics *)

Lemma append_assoc (a b c : string) : (a +:+ b) +:+ c = a +:+ b +:+ c.
Proof.
  induction a as [|x a IH]; [done |].
  change (String x ((a +:+ b) +:+ c) = String x (a +:+ b +:+ c)).
  by rewrite IH.
Qed.

Lemma single_line_append (a b : string) :
  single_line (a +:+ b)
  = single_line a && single_line b.
Proof.
  induction a as [|x a IH]; [done |].
  change (negb (Ascii.eqb x (Ascii.ascii_of_nat 10))
            && single_line (a +:+ b)
          = negb (Ascii.eqb x (Ascii.ascii_of_nat 10))
            && single_line a && single_line b).
  by rewrite IH, andb_assoc.
Qed.

Lemma single_line_std_to_string (n : N) :
  single_line (std_to_string n) = true.
Proof.
  unfold std_to_string. induction (N.to_uint n) as [|d IH|d IH|d IH|d IH|d IH
    |d IH|d IH|d IH|d IH|d IH]; simpl; by rewrite ?IH.
Qed.

Lemma single_line_printable_Type type s :
  utils.to_printable_string_Type type = Ok s → single_line s = true.
Proof. destruct type; vm_compute; by intros [= <-]. Qed.

Lemma single_line_printable_Operator op s :
  utils.to_printable_string_Operator op = Ok s →
  single_line s = true.
Proof. destruct op; vm_compute; by intros [= <-]. Qed.

Lemma single_line_diagnostic_line n message :
  single_line message = true →
  single_line (diagnostic_line n message) = true.
Proof.
  intros Hm. unfold diagnostic_line.
  by rewrite !single_line_append, single_line_std_to_string, Hm.
Qed.

(** What [echo(error_prefix("semantic") + body)] does to the process state. *)
Lemma echo_error_prefix (body : string) (w : World) :
  (prefix ← utils.error_prefix "semantic";
   utils.echo (prefix +:+ body)) w
  = Returned ()
      {| counter := counter w;
         cerr := cerr w
                 +:+ diagnostic_line (value (counter w)) body
                 +:+ endl |}.
Proof.
  unfold mbind, M_bind, utils.error_prefix, utils.echo,
    diagnostic_line.
  do 3 f_equal. by rewrite !append_assoc.
Qed.

Lemma emits_one_line_echo (singles : list string) (body : string) (w : World) :
  (forallb single_line singles = true →
   single_line body = true) →
  emits_one_line singles w
    ((prefix ← utils.error_prefix "semantic";
      utils.echo (prefix +:+ body)) w).
Proof.
  intros Hbody. rewrite echo_error_prefix. exists body. simpl.
  repeat split. intros Hs. by apply single_line_diagnostic_line, Hbody.
Qed.

Lemma emits_one_line_INCOMPATIBLE_OPERANDS singles op expected actual w :
  emits_one_line singles w
    (utils.semantic_error_INCOMPATIBLE_OPERANDS op expected actual w).
Proof.
  unfold utils.semantic_error_INCOMPATIBLE_OPERANDS.
  rewrite bind_lift.
  destruct (utils.to_printable_string_Operator op) as [op_name|] eqn:Hop;
    [| done].
  rewrite bind_lift.
  destruct (utils.to_printable_string_Type expected) as [e_str|] eqn:He;
    [| done].
  rewrite bind_lift.
  destruct (utils.to_printable_string_Type actual) as [a_str|] eqn:Ha;
    [| done].
  apply emits_one_line_echo. intros _.
  rewrite !single_line_append.
  rewrite (single_line_printable_Operator _ _ Hop).
  rewrite (single_line_printable_Type _ _ He).
  by rewrite (single_line_printable_Type _ _ Ha).
Qed.

Lemma emits_one_line_two_types singles (label : string) expected actual w :
  single_line label = true →
  emits_one_line singles w
    ((expected_str ← lift (utils.to_printable_string_Type expected);
      actual_str ← lift (utils.to_printable_string_Type actual);
      prefix ← utils.error_prefix "semantic";
      utils.echo (prefix +:+ label +:+ expected_str
                          +:+ " but received " +:+ actual_str)) w).
Proof.
  intros Hlabel. rewrite bind_lift.
  destruct (utils.to_printable_string_Type expected) as [e_str|] eqn:He;
    [| done].
  rewrite bind_lift.
  destruct (utils.to_printable_string_Type actual) as [a_str|] eqn:Ha;
    [| done].
  apply emits_one_line_echo. intros _.
  rewrite !single_line_append, Hlabel.
  rewrite (single_line_printable_Type _ _ He).
  by rewrite (single_line_printable_Type _ _ Ha).
Qed.

(** C7, as amended: every diagnostic that [semantic_error] emits, whatever
    the [Error], is the text [[Line <n>] semantic error: <message>] followed
    by the end of line, where [n] is the value of the line counter when the
    call is made; the counter is left as it is.  The text is a single line
    when the identifiers passed hold no end of line.  A call whose lookup of
    a printable name throws emits nothing. *)
Theorem semantic_error_line (err : Error) (args : utils.arguments err)
    (w : World) :
  match utils.semantic_error err args w with
  | Returned _ w' =>
      ∃ message,
        cerr w' = cerr w
                  +:+ diagnostic_line (value (counter w)) message
                  +:+ endl
        ∧ counter w' = counter w
        ∧ (forallb single_line (names err args) = true →
           single_line (diagnostic_line (value (counter w)) message) = true)
  | Thrown _ w' => w' = w
  end.
Proof.
  change (emits_one_line (names err args) w (utils.semantic_error err args w)).
  destruct err;
    cbv beta iota delta [utils.semantic_error names
                         utils.arguments] in args |- *.
  - apply emits_one_line_echo. cbn [forallb]. rewrite andb_true_r.
    intros Hn. by rewrite single_line_append, Hn.
  - apply emits_one_line_echo. cbn [forallb]. rewrite andb_true_r.
    intros Hn. by rewrite single_line_append, Hn.
  - destruct args as [[op expected] actual].
    apply emits_one_line_INCOMPATIBLE_OPERANDS.
  - destruct args as [expected actual].
    apply emits_one_line_INCOMPATIBLE_OPERANDS.
  - apply emits_one_line_INCOMPATIBLE_OPERANDS.
  - apply emits_one_line_echo. cbn [forallb]. rewrite andb_true_r.
    intros Hn. by rewrite !single_line_append, Hn.
  - apply emits_one_line_echo. cbn [forallb]. rewrite andb_true_r.
    intros Hn. by rewrite single_line_append, Hn.
  - destruct args as [[name expected] actual].
    apply emits_one_line_echo. cbn [forallb]. rewrite andb_true_r.
    intros Hn.
    by rewrite !single_line_append, !single_line_std_to_string, Hn.
  - destruct args as [[name expected] actual].
    unfold utils.semantic_error_INCOMPATIBLE_PARAM.
    rewrite bind_lift.
    destruct (utils.to_printable_string_Type expected) as [e_str|] eqn:He;
      [| done].
    rewrite bind_lift.
    destruct (utils.to_printable_string_Type actual) as [a_str|] eqn:Ha;
      [| done].
    apply emits_one_line_echo. cbn [forallb]. rewrite andb_true_r. intros Hn.
    rewrite !single_line_append, Hn.
    rewrite (single_line_printable_Type _ _ He).
    by rewrite (single_line_printable_Type _ _ Ha).
  - destruct args as [expected actual].
    by apply (emits_one_line_two_types _ "index operator expects ").
  - by apply emits_one_line_echo.
Qed.

Lemma append_endl_inj (a b : string) : a +:+ endl = b +:+ endl → a = b.
Proof.
  revert b. induction a as [|x a IH]; intros [|y b] Heq.
  - reflexivity.
  - injection Heq as _ Heq. by destruct b.
  - injection Heq as _ Heq. by destruct a.
  - injection Heq as -> Heq. by rewrite (IH b Heq).
Qed.

(** C7 as stated fails: [semantic_error] copies an identifier as it is, so
    the diagnostic of an undeclared variable whose name holds an end of line
    is not a single line. *)
Lemma identifier_with_end_of_line_spans_two_lines :
  let name := "a" +:+ endl +:+ "b" in
  let w' :=
    world_of (utils.semantic_error UNDECLARED_VARIABLE name initial_World) in
  utils.semantic_error UNDECLARED_VARIABLE name initial_World = Returned () w'
  ∧ cerr w'
    = cerr initial_World
      +:+ diagnostic_line (value (counter initial_World))
            ("undeclared variable " +:+ name)
      +:+ endl
  ∧ single_line
      (diagnostic_line (value (counter initial_World))
         ("undeclared variable " +:+ name)) = false
  ∧ ¬ ∃ line,
        single_line line = true
        ∧ cerr w' = cerr initial_World +:+ line +:+ endl.
Proof.
  cbv zeta. split; [reflexivity |]. split; [reflexivity |].
  split; [reflexivity |].
  intros (line & Hsingle & Hline).
  change (cerr initial_World +:+ line +:+ endl) with (line +:+ endl) in Hline.
  change (cerr (world_of (utils.semantic_error UNDECLARED_VARIABLE
                            ("a" +:+ endl +:+ "b") initial_World)))
    with (diagnostic_line (value (counter initial_World))
            ("undeclared variable " +:+ "a" +:+ endl +:+ "b") +:+ endl)
    in Hline.
  apply append_endl_inj in Hline. subst line. by vm_compute in Hsingle.
Qed.

(** ** [Nop] *)

(** C9: [Nop] renders to the empty string at every indentation depth,
    leaving the process state alone, reports the static type VOID and, not
    overriding [Action::error], never carries an error. *)
Theorem Nop_is_inert (depth : N) (w : World) :
  Nop_to_string depth = ""
  ∧ to_string Nop depth w = Returned "" w
  ∧ type Nop = VOID
  ∧ error Nop = false.
Proof. repeat split. Qed.

(** ** [Operation]: what holds whatever [check] does *)

Section AnyCheck.

Variable check : Action → Operation → M Operation.
Variable set_children_end : Operation → M Operation.

Lemma set_children_nil self :
  set_children check set_children_end [] self = set_children_end self.
Proof. reflexivity. Qed.

Lemma set_children_cons action args self :
  set_children check set_children_end (action :: args) self
  = (if negb (fail self || error action)
     then check action (set_fail (fail self || error action) self)
     else mret (set_fail (fail self || error action) self))
    ≫= λ self, set_children check set_children_end args (push_back action self).
Proof. reflexivity. Qed.

(** Once the flag is set, the remaining children are pushed and nothing
    else happens before the recursion ends. *)
Lemma set_children_failed args self w :
  fail self = true →
  set_children check set_children_end args self w
  = set_children_end (append_children args self) w.
Proof.
  revert self. induction args as [|action args IH]; intros self Hfail.
  - destruct self. unfold append_children. simpl.
    by rewrite app_nil_r.
  - rewrite set_children_cons, Hfail. simpl.
    unfold mbind, M_bind, mret, M_ret.
    rewrite IH by done.
    destruct self. unfold append_children, push_back, set_fail. simpl.
    simpl in Hfail. subst. by rewrite <- app_assoc.
Qed.

(** A child that carries an error, or that comes after the flag was set,
    is pushed with no call of [check]. *)
Lemma set_children_skips_check action args self w :
  fail self = true ∨ error action = true →
  set_children check set_children_end (action :: args) self w
  = set_children_end (append_children (action :: args) (set_fail true self)) w.
Proof.
  intros Hskip. rewrite set_children_cons.
  assert (fail self || error action = true) as ->.
  { destruct Hskip as [-> | ->]; [done | by rewrite orb_true_r]. }
  simpl. unfold mbind, M_bind, mret, M_ret.
  rewrite set_children_failed by done.
  destruct self. unfold append_children, push_back, set_fail. simpl.
  by rewrite <- app_assoc.
Qed.

End AnyCheck.

(** The recursion over [args1 ++ args2] is the recursion over [args2] from
    the state it reaches past [args1]. *)
Lemma set_children_app check set_children_end args1 args2 self w :
  set_children check set_children_end (args1 ++ args2) self w
  = (reaches check args1 self
     ≫= set_children check set_children_end args2) w.
Proof.
  unfold reaches. revert self w.
  induction args1 as [|action args1 IH]; intros self w.
  - reflexivity.
  - rewrite <- app_comm_cons, !set_children_cons, bind_assoc.
    apply bind_ext. intros self1 w1. apply IH.
Qed.

(** The flag, once set by a child's error, is still set when the recursion
    reaches the next child. *)
Lemma reaches_keeps_failure check args self w self' w' :
  reaches check args self w = Returned self' w' →
  fail self = true ∨ existsb error args = true →
  fail self' = true.
Proof.
  unfold reaches. revert self w.
  induction args as [|action args IH]; intros self w Hrun Hsome.
  - simpl in Hsome. destruct Hsome as [Hf | ?]; [| done].
    rewrite set_children_nil in Hrun. by injection Hrun as <- _.
  - destruct (fail self || error action) eqn:Hflag.
    + rewrite set_children_skips_check in Hrun.
      * by injection Hrun as <- _.
      * by apply orb_true_iff.
    + apply orb_false_iff in Hflag as [Hf He].
      rewrite set_children_cons, Hf, He in Hrun. simpl in Hrun.
      apply bind_inv_Returned in Hrun as (self1 & w1 & _ & Hrest).
      apply (IH _ _ Hrest). right.
      destruct Hsome as [Hsome | Hsome]; [congruence |].
      simpl in Hsome. by rewrite He in Hsome.
Qed.

(** C2: cascade suppression.  Let the recursion of [set_children] reach
    position [i] of the child list, past the children [pre], in the state
    [self'] of the node and [w'] of the process, and let the child [action]
    at position [i] report an error, or a child before it have reported one.
    Then the recursion ends on the node [ended], which is [self'] with the
    failed flag set and [action] and the children after it pushed to the
    children list; the process state is still [w'], so nothing was written
    to [std::cerr]; and the same holds under every other [check']: no
    compatibility check is made for the child. *)
Theorem cascade_suppression
    (check : Action → Operation → M Operation)
    (set_children_end : Operation → M Operation)
    pre action post self w self' w' :
  reaches check pre self w = Returned self' w' →
  error action = true ∨ existsb error pre = true →
  ∃ ended,
    set_children check set_children_end (pre ++ action :: post) self w
    = set_children_end ended w'
    ∧ fail ended = true
    ∧ children ended = children self' ++ action :: post
    ∧ t ended = t self'
    ∧ needs_coercion ended = needs_coercion self'
    ∧ ∀ check', set_children check' set_children_end (action :: post) self' w'
                = set_children_end ended w'.
Proof.
  intros Hpre Herr.
  assert (fail self' = true ∨ error action = true) as Hskip.
  { destruct Herr as [He | He]; [by right | left].
    apply (reaches_keeps_failure _ _ _ _ _ _ Hpre). by right. }
  exists (append_children (action :: post) (set_fail true self')).
  split.
  { rewrite set_children_app, (bind_Returned _ _ _ _ _ Hpre).
    by apply set_children_skips_check. }
  repeat split.
  intros check'. by apply set_children_skips_check.
Qed.

(** C6: a [Comparison] node reports the static type BOOL, whatever its
    operands are and whatever the compatibility check made of them, through
    either constructor of [Operation]. *)
Theorem Comparison_type_is_BOOL
    (check : Action → Operation → M Operation)
    (set_children_end : Operation → M Operation)
    op a w node w' :
  new_Comparison check set_children_end op a w = Returned node w' →
  type node = BOOL.
Proof.
  unfold new_Comparison. intros Hnew.
  apply bind_inv_Returned in Hnew as (self & w1 & _ & Hret).
  injection Hret as <- _. reflexivity.
Qed.

(** C4, as amended: the operator spelling of a [UnaryMinus] node is ["-u"],
    for every operand and whatever the compatibility check does. *)
Theorem UnaryMinus_op_string_is_minus_u
    (check : Action → Operation → M Operation)
    (set_children_end : Operation → M Operation)
    operand w node w' :
  new_UnaryMinus check set_children_end operand w = Returned node w' →
  ∃ self,
    node = upcast UnaryMinus_class self
    ∧ op_string UnaryMinus_class self = Ok "-u".
Proof.
  unfold new_UnaryMinus. intros Hnew.
  apply bind_inv_Returned in Hnew as (self & w1 & _ & Hret).
  injection Hret as <- _. by exists self.
Qed.

(** ** [Operation]: the compatibility check *)

Lemma set_fail_same self : set_fail (fail self) self = self.
Proof. by destruct self. Qed.

(** The call for the child [action] on a node that has not failed: the
    check, the push, and the recursion over the children that follow. *)
Lemma set_children_checked
    (set_children_end : Operation → M Operation) action rest self w :
  fail self = false → error action = false →
  set_children check set_children_end (action :: rest) self w
  = (check action self
     ≫= λ self, set_children check set_children_end rest (push_back action self)) w.
Proof.
  intros Hf He. rewrite set_children_cons, Hf, He. simpl.
  by rewrite <- Hf, set_fail_same.
Qed.

(** The one diagnostic of an operator whose operands are two of INT, FLOAT
    and BOOL. *)
Lemma semantic_error_INCOMPATIBLE_OPERANDS_printable op expected actual w :
  op ∉ [PAR; CAST] →
  expected ∈ [INT; FLOAT; BOOL] →
  actual ∈ [INT; FLOAT; BOOL] →
  ∃ op_name expected_str actual_str,
    utils.to_printable_string_Operator op = Ok op_name
    ∧ utils.to_printable_string_Type expected = Ok expected_str
    ∧ utils.to_printable_string_Type actual = Ok actual_str
    ∧ utils.semantic_error INCOMPATIBLE_OPERANDS (op, expected, actual) w
      = Returned ()
          {| counter := counter w;
             cerr := cerr w
                     +:+ diagnostic_line (value (counter w))
                           (op_name +:+ " operation expected " +:+ expected_str
                              +:+ " but received " +:+ actual_str)
                     +:+ endl |}.
Proof.
  intros Hop Hexpected Hactual.
  assert (∃ op_name, utils.to_printable_string_Operator op = Ok op_name)
    as [op_name Hname].
  { destruct op; try (vm_compute; eauto); exfalso; apply Hop; enumerated. }
  assert (∃ s, utils.to_printable_string_Type expected = Ok s) as [e_str He].
  { destruct expected; enumerated. }
  assert (∃ s, utils.to_printable_string_Type actual = Ok s) as [a_str Ha].
  { destruct actual; enumerated. }
  exists op_name, e_str, a_str. repeat (split; [done |]).
  cbv beta iota delta [utils.semantic_error].
  unfold utils.semantic_error_INCOMPATIBLE_OPERANDS.
  rewrite bind_lift, Hname, bind_lift, He, bind_lift, Ha.
  apply echo_error_prefix.
Qed.

Lemma check_coerces self action w :
  (t self = INT ∧ type action = FLOAT) ∨ (t self = FLOAT ∧ type action = INT) →
  check action self w = Returned (set_needs_coercion true self) w.
Proof. unfold check. by intros [[-> ->] | [-> ->]]. Qed.

Lemma check_skips_ANY self action w :
  t self = ANY → check action self w = Returned self w.
Proof. unfold check. by intros ->. Qed.

Lemma check_rejects self action w w' :
  t self ≠ ANY →
  t self ≠ type action →
  ¬ ((t self = INT ∧ type action = FLOAT)
     ∨ (t self = FLOAT ∧ type action = INT)) →
  utils.semantic_error INCOMPATIBLE_OPERANDS
    (op self, t self, type action) w = Returned () w' →
  check action self w = Returned (set_t ANY (set_fail true self)) w'.
Proof.
  intros HANY Hne Hother Hemit. unfold check.
  rewrite (bool_decide_eq_false_2 _ HANY).
  unfold utils.type_matches. rewrite (bool_decide_eq_false_2 _ Hne).
  assert (utils.can_coerce (t self) (type action)
          || utils.can_coerce (type action) (t self) = false) as ->.
  { destruct (t self), (type action); try reflexivity;
      exfalso; apply Hother; auto. }
  change (op (set_t ANY (set_fail true self))) with (op self).
  by rewrite (bind_Returned _ _ _ _ _ Hemit).
Qed.

(** C1, as amended.  Let the node have accumulated type [T] and not have
    failed, and let the next child carry no error and have a type [S] other
    than [T].  (i) If [T] and [S] are INT and FLOAT, in either position, the
    child is accepted: the needs-coercion marker is set, nothing is emitted
    and the recursion goes on to the children that follow.  (ii) If [T] and
    [S] are any other two of INT, FLOAT and BOOL and the operator has a
    printable name (it is not PAR or CAST), exactly one
    INCOMPATIBLE_OPERANDS diagnostic is emitted, the failed flag is set and
    the type becomes ANY.  (iii) If [T] is ANY, the child is accepted with
    nothing emitted and the flag as it was. *)
Theorem operand_compatibility
    (set_children_end : Operation → M Operation)
    (self : Operation) (action : Action) (rest : list Action) (w : World) :
  fail self = false →
  error action = false →
  t self ≠ type action →
  ((t self = INT ∧ type action = FLOAT) ∨ (t self = FLOAT ∧ type action = INT) →
   set_children check set_children_end (action :: rest) self w
   = set_children check set_children_end rest
       (push_back action (set_needs_coercion true self)) w)
  ∧ (t self ∈ [INT; FLOAT; BOOL] → type action ∈ [INT; FLOAT; BOOL] →
     ¬ ((t self = INT ∧ type action = FLOAT)
        ∨ (t self = FLOAT ∧ type action = INT)) →
     op self ∉ [PAR; CAST] →
     ∃ op_name expected actual w',
       utils.to_printable_string_Operator (op self) = Ok op_name
       ∧ utils.to_printable_string_Type (t self) = Ok expected
       ∧ utils.to_printable_string_Type (type action) = Ok actual
       ∧ utils.semantic_error INCOMPATIBLE_OPERANDS
           (op self, t self, type action) w = Returned () w'
       ∧ counter w' = counter w
       ∧ cerr w' = cerr w
                   +:+ diagnostic_line (value (counter w))
                         (op_name +:+ " operation expected " +:+ expected
                            +:+ " but received " +:+ actual)
                   +:+ endl
       ∧ set_children check set_children_end (action :: rest) self w
         = set_children check set_children_end rest
             (push_back action (set_t ANY (set_fail true self))) w')
  ∧ (t self = ANY →
     set_children check set_children_end (action :: rest) self w
     = set_children check set_children_end rest (push_back action self) w).
Proof.
  intros Hf He Hne. rewrite (set_children_checked _ _ _ _ _ Hf He).
  split; [| split].
  - intros Hpair.
    by rewrite (bind_Returned _ _ _ _ _ (check_coerces _ _ w Hpair)).
  - intros HT HS Hother Hop.
    destruct (semantic_error_INCOMPATIBLE_OPERANDS_printable
                (op self) (t self) (type action) w Hop HT HS)
      as (op_name & expected & actual & Hname & Hexp & Hact & Hemit).
    eexists op_name, expected, actual, _.
    split; [exact Hname |]. split; [exact Hexp |]. split; [exact Hact |].
    split; [exact Hemit |]. split; [reflexivity |]. split; [reflexivity |].
    assert (t self ≠ ANY) as HANY.
    { intros HANY. rewrite HANY in HT. enumerated. }
    by rewrite (bind_Returned _ _ _ _ _
                  (check_rejects _ _ w _ HANY Hne Hother Hemit)).
  - intros HT.
    by rewrite (bind_Returned _ _ _ _ _ (check_skips_ANY _ _ w HT)).
Qed.

Lemma operand_compatibility_witness :
  set_children check set_children_end [Constant FLOAT "2.0"]
    {| op := PLUS; t := INT; fail := false; needs_coercion := false;
       children := [Constant INT "1"] |} initial_World
  = set_children check set_children_end []
      (push_back (Constant FLOAT "2.0")
         (set_needs_coercion true
            {| op := PLUS; t := INT; fail := false; needs_coercion := false;
               children := [Constant INT "1"] |})) initial_World.
Proof.
  refine (proj1 (operand_compatibility set_children_end
                   {| op := PLUS; t := INT; fail := false;
                      needs_coercion := false;
                      children := [Constant INT "1"] |}
                   (Constant FLOAT "2.0") [] initial_World _ _ _) _).
  - reflexivity.
  - reflexivity.
  - discriminate.
  - left. split; reflexivity.
Defined.

(** C1 as stated fails: an INT operation whose second operand is an
    undeclared variable (type ANY, error set) is a pair of unequal types
    other than INT and FLOAT, and the constructor writes nothing to
    [std::cerr]. *)
Lemma erroring_operand_emits_nothing :
  let first := Constant INT "1" in
  let second := Variable_ true ANY "x" in
  type first ≠ type second
  ∧ ¬ ((type first = INT ∧ type second = FLOAT)
       ∨ (type first = FLOAT ∧ type second = INT))
  ∧ new_Operation check set_children_end PLUS (from_first first [second])
      initial_World
    = Returned
        (OperationNode Operation_class PLUS INT true false [first; second])
        initial_World
  ∧ ¬ ∃ line,
        cerr (world_of (new_Operation check set_children_end PLUS
                          (from_first first [second]) initial_World))
        = cerr initial_World +:+ line +:+ endl.
Proof.
  simpl. split; [discriminate |]. split; [intros [[? ?] | [? ?]]; discriminate |].
  split; [reflexivity |].
  intros [line Hline]. vm_compute in Hline. by destruct line.
Qed.

(** ** [ExpressionList] *)

Lemma add_all_cons action members self :
  add_all (action :: members) self
  = add_all members (ExpressionList.add action self).
Proof. reflexivity. Qed.

Lemma ExpressionList_error_add_all members self :
  ExpressionList.error (add_all members self)
  = ExpressionList.fail self || existsb error members.
Proof.
  revert self. induction members as [|action members IH]; intros self.
  - simpl. by rewrite orb_false_r.
  - rewrite add_all_cons, IH. simpl. by rewrite orb_assoc.
Qed.

Lemma ExpressionList_size_add_all members self :
  ExpressionList.size (add_all members self)
  = ExpressionList.size self + length members.
Proof.
  revert self. induction members as [|action members IH]; intros self.
  - simpl. lia.
  - rewrite add_all_cons, IH.
    unfold ExpressionList.size, ExpressionList.add. simpl.
    rewrite length_app. simpl. lia.
Qed.

(** C5 at the failing input: [error()] of a list is the value its [fail]
    member started with, or-ed with the members' errors; a
    default-initialised list with no members reports whatever [fail]
    happened to hold, and only a value-initialised one reports what its
    members report. *)
Theorem ExpressionList_error_reads_initial_flag :
  (∀ members indeterminate,
      ExpressionList.error
        (add_all members (ExpressionList.default_initialized indeterminate))
      = indeterminate || existsb error members)
  ∧ ExpressionList.size (ExpressionList.default_initialized true) = 0
  ∧ ExpressionList.error (ExpressionList.default_initialized true) = true
  ∧ (∀ members,
      ExpressionList.error (add_all members ExpressionList.value_initialized)
      = existsb error members).
Proof.
  split; [intros; apply ExpressionList_error_add_all |].
  split; [reflexivity |]. split; [reflexivity |].
  intros. apply ExpressionList_error_add_all.
Qed.

(** ** Rendering *)

(** A node whose operator spelling throws does not render. *)
Lemma to_string_throws_with_op_string cls self d w :
  op_string cls self = Raise out_of_range →
  result_of (to_string (upcast cls self) d w) = Raise out_of_range.
Proof.
  intros Hop. destruct self as [o ty f nc cs]. unfold upcast. simpl.
  unfold Operation_to_string. simpl.
  unfold mbind at 1. unfold M_bind.
  destruct (operands_text _ nc cs w) as [texts w1|[] w1]; [| done].
  by rewrite bind_lift, Hop.
Qed.

(** Under the layout above a [UnaryMinus] node is rendered with its spelling
    before the text of its operand. *)
Lemma UnaryMinus_to_string operand ty f d w text :
  to_string operand d w = Returned text w →
  to_string (OperationNode UnaryMinus_class UNARY_MINUS ty f false [operand]) d w
  = Returned ("(" +:+ "-u" +:+ text +:+ ")") w.
Proof.
  intros Hoperand. simpl. unfold Operation_to_string. simpl.
  unfold mbind at 1. unfold M_bind.
  by rewrite (bind_Returned _ _ _ _ _ Hoperand).
Qed.

(** A cast to VOID or ANY is a node that cannot be rendered, whatever its
    operand. *)
Lemma new_Cast_throws_on_rendering
    (check : Action → Operation → M Operation)
    (set_children_end : Operation → M Operation)
    type operand w node w' d w'' :
  new_Cast check set_children_end type operand w = Returned node w' →
  type ∈ [VOID; ANY] →
  result_of (to_string node d w'') = Raise out_of_range.
Proof.
  unfold new_Cast. intros Hnew Htype.
  apply bind_inv_Returned in Hnew as (self & w1 & _ & Hret).
  injection Hret as <- _.
  apply to_string_throws_with_op_string.
  unfold op_string, Cast_op_string, Operation_type, set_type. simpl.
  apply to_string_Type_raises in Htype. by rewrite Htype.
Qed.

(** A comparison of two constants of types among INT, FLOAT and BOOL is
    always constructed, with or without a diagnostic, and is of type BOOL. *)
Lemma new_Comparison_of_constants op T S v1 v2 w :
  op ∉ [PAR; CAST] →
  T ∈ [INT; FLOAT; BOOL] →
  S ∈ [INT; FLOAT; BOOL] →
  ∃ f nc w',
    new_Comparison check set_children_end op
      (from_first (Constant T v1) [Constant S v2]) w
    = Returned
        (OperationNode Comparison_class op BOOL f nc
           [Constant T v1; Constant S v2]) w'.
Proof.
  intros Hop HT HS.
  destruct T; try enumerated; destruct S; try enumerated;
    destruct op; try (exfalso; apply Hop; enumerated);
    eexists _, _, _; reflexivity.
Qed.

(** ** Instances *)

Lemma cascade_suppression_witness :
  ∃ ended,
    set_children check set_children_end
      ([Constant INT "1"] ++ Variable_ true ANY "x" :: [Constant BOOL "true"])
      {| op := PLUS; t := INT; fail := false; needs_coercion := false;
         children := [] |} initial_World
    = set_children_end ended initial_World
    ∧ fail ended = true
    ∧ children ended
      = children {| op := PLUS; t := INT; fail := false;
                    needs_coercion := false;
                    children := [Constant INT "1"] |}
        ++ Variable_ true ANY "x" :: [Constant BOOL "true"]
    ∧ t ended = t {| op := PLUS; t := INT; fail := false;
                     needs_coercion := false;
                     children := [Constant INT "1"] |}
    ∧ needs_coercion ended
      = needs_coercion {| op := PLUS; t := INT; fail := false;
                          needs_coercion := false;
                          children := [Constant INT "1"] |}
    ∧ ∀ check',
        set_children check' set_children_end
          (Variable_ true ANY "x" :: [Constant BOOL "true"])
          {| op := PLUS; t := INT; fail := false; needs_coercion := false;
             children := [Constant INT "1"] |} initial_World
        = set_children_end ended initial_World.
Proof.
  apply (cascade_suppression check set_children_end
           [Constant INT "1"] (Variable_ true ANY "x") [Constant BOOL "true"]
           {| op := PLUS; t := INT; fail := false; needs_coercion := false;
              children := [] |} initial_World).
  - reflexivity.
  - left. reflexivity.
Defined.

Lemma Comparison_type_is_BOOL_witness :
  ∃ node w',
    new_Comparison check set_children_end EQUAL
      (from_first (Constant INT "1") [Constant BOOL "true"]) initial_World
    = Returned node w'
    ∧ error node = true
    ∧ type node = BOOL.
Proof.
  eexists _, _. split; [reflexivity |]. split; [reflexivity |].
  apply (Comparison_type_is_BOOL check set_children_end EQUAL
           (from_first (Constant INT "1") [Constant BOOL "true"])
           initial_World _ _ eq_refl).
Defined.

Lemma UnaryMinus_op_string_is_minus_u_witness :
  ∃ self,
    OperationNode UnaryMinus_class UNARY_MINUS INT false false [Constant INT "1"]
    = upcast UnaryMinus_class self
    ∧ op_string UnaryMinus_class self = Ok "-u".
Proof.
  apply (UnaryMinus_op_string_is_minus_u check set_children_end
           (Constant INT "1") initial_World _ initial_World).
  reflexivity.
Defined.

(** C4 as stated fails: the spelling of the node [UnaryMinus(1)] is not
    ["-"], the canonical symbol of MINUS. *)
Lemma UnaryMinus_op_string_is_not_minus :
  op_string UnaryMinus_class
    {| op := UNARY_MINUS; t := INT; fail := false; needs_coercion := false;
       children := [Constant INT "1"] |}
  ≠ Ok "-"
  ∧ utils.to_string_Operator MINUS = Ok "-".
Proof. split; [discriminate | reflexivity]. Qed.

(** * Further properties of the headers *)

(** ** Printable names and canonical symbols *)

Lemma to_printable_string_Type_defined (type : PrimitiveType) :
  (∃ s, utils.to_printable_string_Type type = Ok s) ↔ type ∈ [INT; FLOAT; BOOL].
Proof. split; [intros [s Hs] | intros Hin]; destruct type; enumerated. Qed.

Lemma to_printable_string_Type_raises (type : PrimitiveType) :
  utils.to_printable_string_Type type = Raise out_of_range ↔ type ∈ [VOID; ANY].
Proof. split; [intros Hs | intros Hin]; destruct type; enumerated. Qed.

Lemma to_printable_string_Operator_defined (op : Operator) :
  (∃ s, utils.to_printable_string_Operator op = Ok s) ↔ op ∉ [PAR; CAST].
Proof.
  split.
  - intros [s Hs] Hin. destruct op; enumerated.
  - intros Hin. destruct op; try (by vm_compute; eauto);
      exfalso; apply Hin; enumerated.
Qed.

Lemma to_printable_string_Operator_raises (op : Operator) :
  utils.to_printable_string_Operator op = Raise out_of_range ↔ op ∈ [PAR; CAST].
Proof. split; [intros Hs | intros Hin]; destruct op; enumerated. Qed.

(** X1: the lookups of printable names are partial.
    [to_printable_string(Type)] returns for INT, FLOAT and BOOL and throws
    [std::out_of_range] for VOID and ANY; [to_printable_string(Operator)]
    returns for every operator but PAR and CAST, for which it throws. *)
Theorem printable_lookups_partial :
  (∀ type, (∃ s, utils.to_printable_string_Type type = Ok s)
           ↔ type ∈ [INT; FLOAT; BOOL])
  ∧ (∀ type, utils.to_printable_string_Type type = Raise out_of_range
             ↔ type ∈ [VOID; ANY])
  ∧ (∀ op, (∃ s, utils.to_printable_string_Operator op = Ok s)
           ↔ op ∉ [PAR; CAST])
  ∧ (∀ op, utils.to_printable_string_Operator op = Raise out_of_range
           ↔ op ∈ [PAR; CAST]).
Proof.
  split; [exact to_printable_string_Type_defined |].
  split; [exact to_printable_string_Type_raises |].
  split; [exact to_printable_string_Operator_defined |].
  exact to_printable_string_Operator_raises.
Qed.

(** X2: the tables agree on what they cover.  Every operator with a
    canonical symbol has a printable name; a type has a canonical name
    exactly when it has a printable one; and the operators that can be named
    in a diagnostic but not spelled are UNARY_MINUS, ASSIGN and TEST. *)
Theorem spelled_is_printable :
  (∀ op s, utils.to_string_Operator op = Ok s →
           ∃ p, utils.to_printable_string_Operator op = Ok p)
  ∧ (∀ type, (∃ s, utils.to_string_Type type = Ok s)
             ↔ (∃ p, utils.to_printable_string_Type type = Ok p))
  ∧ (∀ op, ((∃ p, utils.to_printable_string_Operator op = Ok p)
            ∧ utils.to_string_Operator op = Raise out_of_range)
           ↔ op ∈ [UNARY_MINUS; ASSIGN; TEST]).
Proof.
  split; [| split].
  - intros op s Hs. destruct op; enumerated.
  - intros type.
    by rewrite to_string_Type_defined, to_printable_string_Type_defined.
  - intros op. split.
    + intros [[p Hp] Hs]. destruct op; enumerated.
    + intros Hin. destruct op; try enumerated; split; enumerated.
Qed.

(** X3: spellings are unambiguous.  Two operators with the same canonical
    symbol, or with the same printable name, are the same operator, and
    likewise for types. *)
Theorem spellings_are_injective :
  (∀ op1 op2 s, utils.to_string_Operator op1 = Ok s →
                utils.to_string_Operator op2 = Ok s → op1 = op2)
  ∧ (∀ op1 op2 s, utils.to_printable_string_Operator op1 = Ok s →
                  utils.to_printable_string_Operator op2 = Ok s → op1 = op2)
  ∧ (∀ type1 type2 s, utils.to_string_Type type1 = Ok s →
                      utils.to_string_Type type2 = Ok s → type1 = type2)
  ∧ (∀ type1 type2 s, utils.to_printable_string_Type type1 = Ok s →
                      utils.to_printable_string_Type type2 = Ok s →
                      type1 = type2).
Proof.
  repeat split.
  - intros op1 op2 s H1 H2.
    destruct op1; vm_compute in H1; try discriminate;
      destruct op2; vm_compute in H2; try discriminate;
      try reflexivity; congruence.
  - intros op1 op2 s H1 H2.
    destruct op1; vm_compute in H1; try discriminate;
      destruct op2; vm_compute in H2; try discriminate;
      try reflexivity; congruence.
  - intros type1 type2 s H1 H2.
    destruct type1; vm_compute in H1; try discriminate;
      destruct type2; vm_compute in H2; try discriminate;
      try reflexivity; congruence.
  - intros type1 type2 s H1 H2.
    destruct type1; vm_compute in H1; try discriminate;
      destruct type2; vm_compute in H2; try discriminate;
      try reflexivity; congruence.
Qed.

(** ** Matching and coercion *)

(** X4: [type_matches] decides equality of types and never holds together
    with [can_coerce]; [can_coerce] relates no type to itself, never holds
    in both directions, and never chains: what was coerced to is not
    coerced again. *)
Theorem matching_and_coercion :
  (∀ target source, utils.type_matches target source = true ↔ target = source)
  ∧ (∀ target source, utils.can_coerce target source = true →
                      utils.type_matches target source = false)
  ∧ (∀ type, utils.can_coerce type type = false)
  ∧ (∀ target source, utils.can_coerce target source = true →
                      utils.can_coerce source target = false)
  ∧ (∀ a b c, utils.can_coerce a b = true → utils.can_coerce b c = false).
Proof.
  split; [intros; apply bool_decide_eq_true |].
  repeat split.
  - intros target source. by destruct target, source.
  - intros type. by destruct type.
  - intros target source. by destruct target, source.
  - intros a b c. by destruct a, b, c.
Qed.

(** ** Diagnostics: when they throw, what they say *)

Lemma result_of_echo_error_prefix (body : string) (w : World) :
  result_of ((prefix ← utils.error_prefix "semantic";
              utils.echo (prefix +:+ body)) w) = Ok ().
Proof. by rewrite echo_error_prefix. Qed.

Lemma result_of_INCOMPATIBLE_OPERANDS op expected actual w :
  result_of (utils.semantic_error_INCOMPATIBLE_OPERANDS op expected actual w)
  = (_ ← utils.to_printable_string_Operator op;
     _ ← utils.to_printable_string_Type expected;
     _ ← utils.to_printable_string_Type actual;
     Ok ()).
Proof.
  unfold utils.semantic_error_INCOMPATIBLE_OPERANDS.
  rewrite bind_lift.
  destruct (utils.to_printable_string_Operator op); [| done].
  rewrite bind_lift.
  destruct (utils.to_printable_string_Type expected); [| done].
  rewrite bind_lift.
  destruct (utils.to_printable_string_Type actual); [| done].
  apply result_of_echo_error_prefix.
Qed.

Lemma result_of_two_types (label : string) expected actual w :
  result_of
    ((expected_str ← lift (utils.to_printable_string_Type expected);
      actual_str ← lift (utils.to_printable_string_Type actual);
      prefix ← utils.error_prefix "semantic";
      utils.echo (prefix +:+ label +:+ expected_str
                    +:+ " but received " +:+ actual_str)) w)
  = (_ ← utils.to_printable_string_Type expected;
     _ ← utils.to_printable_string_Type actual;
     Ok ()).
Proof.
  rewrite bind_lift.
  destruct (utils.to_printable_string_Type expected); [| done].
  rewrite bind_lift.
  destruct (utils.to_printable_string_Type actual); [| done].
  apply result_of_echo_error_prefix.
Qed.

(** X5: a call of [semantic_error] returns exactly when every operator and
    type it is given has a printable name, and throws [std::out_of_range]
    otherwise; the calls that take identifiers and counts only always
    return. *)
Theorem semantic_error_returns_iff_printable
    (err : Error) (args : utils.arguments err) (w : World) :
  result_of (utils.semantic_error err args w)
  = if printable_arguments err args then Ok () else Raise out_of_range.
Proof.
  destruct err;
    cbv beta iota delta [utils.semantic_error printable_arguments
                         utils.arguments] in args |- *;
    try apply result_of_echo_error_prefix.
  - destruct args as [[op expected] actual].
    rewrite result_of_INCOMPATIBLE_OPERANDS.
    by destruct op, expected, actual.
  - destruct args as [expected actual].
    unfold utils.semantic_error_INCOMPATIBLE_ASSIGNMENT.
    rewrite result_of_INCOMPATIBLE_OPERANDS.
    by destruct expected, actual.
  - unfold utils.semantic_error_INCOMPATIBLE_TEST.
    rewrite result_of_INCOMPATIBLE_OPERANDS.
    by destruct args.
  - destruct args as [[name expected] actual].
    apply result_of_echo_error_prefix.
  - destruct args as [[name expected] actual].
    by destruct expected, actual; vm_compute.
  - destruct args as [expected actual].
    unfold utils.semantic_error_INCOMPATIBLE_INDEX.
    rewrite (result_of_two_types "index operator expects ").
    by destruct expected, actual.
Qed.

(** X6: the two diagnostics that delegate.  For types with printable names,
    INCOMPATIBLE_ASSIGNMENT writes the line of an operation named
    "attribution", and INCOMPATIBLE_TEST that of an operation named "test"
    that expected "boolean", whatever was received. *)
Theorem assignment_and_test_lines expected actual expected_str actual_str w :
  utils.to_printable_string_Type expected = Ok expected_str →
  utils.to_printable_string_Type actual = Ok actual_str →
  utils.semantic_error INCOMPATIBLE_ASSIGNMENT (expected, actual) w
  = Returned ()
      (written
         (diagnostic_line (value (counter w))
            ("attribution operation expected " +:+ expected_str
               +:+ " but received " +:+ actual_str)) w)
  ∧ utils.semantic_error INCOMPATIBLE_TEST actual w
    = Returned ()
        (written
           (diagnostic_line (value (counter w))
              ("test operation expected boolean but received "
                 +:+ actual_str)) w).
Proof.
  intros Hexpected Hactual.
  cbv beta iota delta [utils.semantic_error].
  unfold utils.semantic_error_INCOMPATIBLE_ASSIGNMENT,
    utils.semantic_error_INCOMPATIBLE_TEST,
    utils.semantic_error_INCOMPATIBLE_OPERANDS.
  split.
  - rewrite bind_lift. change (utils.to_printable_string_Operator ASSIGN)
      with (Ok (A:=string) "attribution").
    cbv iota beta. rewrite bind_lift, Hexpected, bind_lift, Hactual.
    apply echo_error_prefix.
  - rewrite bind_lift. change (utils.to_printable_string_Operator TEST)
      with (Ok (A:=string) "test").
    cbv iota beta. rewrite bind_lift.
    change (utils.to_printable_string_Type BOOL) with (Ok (A:=string) "boolean").
    cbv iota beta. rewrite bind_lift, Hactual.
    apply echo_error_prefix.
Qed.

Lemma assignment_and_test_lines_witness :
  utils.semantic_error INCOMPATIBLE_ASSIGNMENT (FLOAT, BOOL) initial_World
  = Returned ()
      (written
         (diagnostic_line (value (counter initial_World))
            ("attribution operation expected " +:+ "float"
               +:+ " but received " +:+ "boolean")) initial_World)
  ∧ utils.semantic_error INCOMPATIBLE_TEST BOOL initial_World
    = Returned ()
        (written
           (diagnostic_line (value (counter initial_World))
              ("test operation expected boolean but received "
                 +:+ "boolean")) initial_World).
Proof.
  apply (assignment_and_test_lines FLOAT BOOL "float" "boolean" initial_World);
    reflexivity.
Defined.

(** ** The line counter *)

(** X7: the line counter after [k] increments from its initial value reads
    [1 + k] modulo [SIZE_MAX + 1], and so never exceeds [SIZE_MAX]. *)
Theorem line_counter_after_increments (k : N) :
  value (N.iter k pre_increment (counter initial_World))
  = ((1 + k) mod (SIZE_MAX + 1))%N
  ∧ (value (N.iter k pre_increment (counter initial_World)) ≤ SIZE_MAX)%N.
Proof.
  assert (value (N.iter k pre_increment (counter initial_World))
          = ((1 + k) mod (SIZE_MAX + 1))%N) as Hvalue.
  { induction k as [|k IH] using N.peano_ind; [reflexivity |].
    rewrite N.iter_succ.
    change ((value (N.iter k pre_increment (counter initial_World)) + 1)
              mod (SIZE_MAX + 1)
            = (1 + N.succ k) mod (SIZE_MAX + 1))%N.
    rewrite IH, N.Div0.add_mod_idemp_l. f_equal. lia. }
  split; [exact Hvalue |]. rewrite Hvalue.
  assert ((1 + k) mod (SIZE_MAX + 1) < SIZE_MAX + 1)%N
    by (by apply N.mod_upper_bound).
  lia.
Qed.

(** ** [Operation]: what the constructors do whatever [check] does *)

(** The recursion is the recursion up to the end followed by the call of the
    overload without parameters. *)
Lemma set_children_reaches check set_children_end args self w :
  set_children check set_children_end args self w
  = (reaches check args self ≫= set_children_end) w.
Proof.
  rewrite <- (app_nil_r args) at 1. by rewrite set_children_app.
Qed.

(** X8: [set_children] calls [check] on a node whose failed flag is clear
    and on no other: two checks that agree on such nodes build the same
    node, with the same diagnostics, from the same children. *)
Theorem check_only_sees_unfailed_nodes
    (check1 check2 : Action → Operation → M Operation)
    (set_children_end : Operation → M Operation) args self w :
  (∀ action self w, fail self = false →
                    check1 action self w = check2 action self w) →
  set_children check1 set_children_end args self w
  = set_children check2 set_children_end args self w.
Proof.
  intros Hagree. revert self w.
  induction args as [|action args IH]; intros self w; [reflexivity |].
  rewrite !set_children_cons.
  destruct (fail self || error action) eqn:Hflag; simpl.
  - apply bind_ext. intros self1 w1. apply IH.
  - unfold mbind, M_bind. rewrite Hagree by done.
    destruct (check2 action (set_fail false self) w); [apply IH | done].
Qed.

Lemma check_only_sees_unfailed_nodes_witness :
  set_children
    (λ _ self w, if fail self then Thrown out_of_range w else Returned self w)
    mret [Variable_ true ANY "x"; Constant INT "1"]
    {| op := PLUS; t := INT; fail := false; needs_coercion := false;
       children := [] |} initial_World
  = set_children (λ _ self, mret self)
      mret [Variable_ true ANY "x"; Constant INT "1"]
      {| op := PLUS; t := INT; fail := false; needs_coercion := false;
         children := [] |} initial_World.
Proof.
  apply (check_only_sees_unfailed_nodes
           (λ _ self w,
              if fail self then Thrown out_of_range w else Returned self w)
           (λ _ self, mret self)).
  intros action self w Hfail. rewrite Hfail. reflexivity.
Defined.

(** X9: no child is dropped or reordered.  If [check] leaves the children
    list of the node alone, the children list when the recursion ends is the
    one it started from followed by the arguments in their order, failed or
    not. *)
Theorem children_in_argument_order
    (check : Action → Operation → M Operation) args self w self' w' :
  (∀ action self w self' w',
      check action self w = Returned self' w' → children self' = children self) →
  reaches check args self w = Returned self' w' →
  children self' = children self ++ args.
Proof.
  intros Hframe. unfold reaches. revert self w.
  induction args as [|action args IH]; intros self w Hrun.
  - rewrite set_children_nil in Hrun. injection Hrun as <- _.
    by rewrite app_nil_r.
  - rewrite set_children_cons in Hrun.
    apply bind_inv_Returned in Hrun as (self1 & w1 & Hstep & Hrest).
    apply IH in Hrest. rewrite Hrest. simpl.
    assert (children self1 = children self) as ->.
    { destruct (negb (fail self || error action)).
      - by rewrite (Hframe _ _ _ _ _ Hstep).
      - by injection Hstep as <- _. }
    by rewrite <- app_assoc.
Qed.

Lemma children_in_argument_order_witness :
  children
    {| op := PLUS; t := INT; fail := true; needs_coercion := false;
       children := [Constant INT "1"; Variable_ true ANY "x"; Nop] |}
  = children {| op := PLUS; t := INT; fail := false; needs_coercion := false;
                children := [] |}
    ++ [Constant INT "1"; Variable_ true ANY "x"; Nop].
Proof.
  apply (children_in_argument_order (λ _ self, mret self)
           [Constant INT "1"; Variable_ true ANY "x"; Nop]
           {| op := PLUS; t := INT; fail := false; needs_coercion := false;
              children := [] |} initial_World _ initial_World).
  - intros action self w self' w' Hcheck. by injection Hcheck as <- _.
  - reflexivity.
Defined.

(** X10: an operation over a first operand that carries an error.  Whatever
    the other operands are, no check is made and nothing is written: the
    recursion ends on the node with the given operator, the failed flag set,
    no coercion marked and every operand among its children; its type is
    the first operand's, or the explicit one.  So are [Parenthesis] and
    [UnaryMinus] of an operand that carries an error. *)
Theorem Operation_of_failed_first
    (check : Action → Operation → M Operation)
    (set_children_end : Operation → M Operation)
    operator explicit first args w :
  error first = true →
  Operation_ctor check set_children_end operator (from_first first args) w
  = set_children_end
      {| op := operator; t := type first; fail := true;
         needs_coercion := false; children := first :: args |} w
  ∧ Operation_ctor check set_children_end operator (from_type explicit (first :: args)) w
    = set_children_end
        {| op := operator; t := explicit; fail := true;
           needs_coercion := false; children := first :: args |} w
  ∧ new_Parenthesis check set_children_end first w
    = (set_children_end
         {| op := PAR; t := type first; fail := true;
            needs_coercion := false; children := [first] |}
       ≫= λ self, mret (upcast Parenthesis_class self)) w
  ∧ new_UnaryMinus check set_children_end first w
    = (set_children_end
         {| op := UNARY_MINUS; t := type first; fail := true;
            needs_coercion := false; children := [first] |}
       ≫= λ self, mret (upcast UnaryMinus_class self)) w.
Proof.
  intros Herror.
  assert (∀ self, children self = [] →
            set_children check set_children_end (first :: args) self w
            = set_children_end
                {| op := op self; t := t self; fail := true;
                   needs_coercion := needs_coercion self;
                   children := first :: args |} w) as Hskip.
  { intros self Hnone. rewrite set_children_skips_check by (by right).
    destruct self. simpl in Hnone. subst. reflexivity. }
  assert (∀ self, children self = [] →
            set_children check set_children_end [first] self w
            = set_children_end
                {| op := op self; t := t self; fail := true;
                   needs_coercion := needs_coercion self;
                   children := [first] |} w) as Hone.
  { intros self Hnone. rewrite set_children_skips_check by (by right).
    destruct self. simpl in Hnone. subst. reflexivity. }
  split; [by apply Hskip |]. split; [by apply Hskip |].
  split.
  - unfold new_Parenthesis, Operation_ctor, Operation_from_first.
    unfold mbind, M_bind. by rewrite Hone.
  - unfold new_UnaryMinus, Operation_ctor, Operation_from_first.
    unfold mbind, M_bind. by rewrite Hone.
Qed.

Lemma Operation_of_failed_first_witness :
  Operation_ctor check set_children_end MINUS
    (from_first (Variable_ true ANY "x") [Constant BOOL "true"]) initial_World
  = set_children_end
      {| op := MINUS; t := type (Variable_ true ANY "x"); fail := true;
         needs_coercion := false;
         children := Variable_ true ANY "x" :: [Constant BOOL "true"] |}
      initial_World.
Proof.
  refine (proj1 (Operation_of_failed_first check set_children_end MINUS INT
                   (Variable_ true ANY "x") [Constant BOOL "true"]
                   initial_World _)).
  reflexivity.
Defined.

(** ** [Cast::op_string] *)

(** X11: the spelling of a cast determines its type.  Two casts that are
    spelled alike report the same [type()], and a spelling that is returned
    is one of ["[int]"], ["[float]"] and ["[bool]"]. *)
Theorem Cast_spelling_determines_type self1 self2 name :
  Cast_op_string self1 = Ok name →
  Cast_op_string self2 = Ok name →
  Operation_type self1 = Operation_type self2
  ∧ name ∈ ["[int]"; "[float]"; "[bool]"].
Proof.
  unfold Cast_op_string. intros H1 H2.
  destruct (Operation_type self1); vm_compute in H1; try discriminate;
    destruct (Operation_type self2); vm_compute in H2; try discriminate;
    (split; [reflexivity || congruence |]);
    injection H1 as <-; enumerated.
Qed.

Lemma Cast_spelling_determines_type_witness :
  Operation_type
    {| op := CAST; t := FLOAT; fail := false; needs_coercion := false;
       children := [Constant INT "1"] |}
  = Operation_type
      {| op := CAST; t := FLOAT; fail := true; needs_coercion := false;
         children := [Variable_ true ANY "x"] |}
  ∧ "[float]" ∈ ["[int]"; "[float]"; "[bool]"].
Proof.
  apply (Cast_spelling_determines_type
           {| op := CAST; t := FLOAT; fail := false; needs_coercion := false;
              children := [Constant INT "1"] |}
           {| op := CAST; t := FLOAT; fail := true; needs_coercion := false;
              children := [Variable_ true ANY "x"] |} "[float]");
    reflexivity.
Defined.

(** ** Destructors *)

(** X12: the loop of the destructors ends after one test of its condition
    more than there are items, and not before; it has then handed every item
    to [delete] exactly once, the last one first, and left the list empty. *)
Theorem delete_all_deletes_each_once {A} (fuel : nat) (items deleted : list A) :
  delete_all fuel items deleted
  = if decide (length items < fuel)
    then Some ([], deleted ++ rev items)
    else None.
Proof.
  revert items deleted. induction fuel as [|fuel IH]; intros items deleted.
  - case_decide; [lia | reflexivity].
  - destruct items as [|front rest].
    + cbn [delete_all]. case_decide; [| simpl in *; lia].
      simpl. by rewrite app_nil_r.
    + cbn [delete_all].
      destruct (exists_last (l := front :: rest)) as (items' & back & Hitems);
        [done |].
      rewrite Hitems, last_last, removelast_last, IH.
      rewrite rev_app_distr, length_app. simpl.
      repeat case_decide; try lia; try reflexivity.
      by rewrite <- app_assoc.
Qed.

(** ** Where diagnostics come from *)


